(** * parse_edid_buffer: the buffer entry point of the WASM build

    A shallow embedding of [src/wasm/parse_edid_buffer.cpp].  The file
    declares a static staging array that the host fills, two accessors
    and [parse_edid_buffer], which resets the decoder's globals, checks
    the declared length and the EDID header, copies the bytes into the
    decoder's [edid] array and runs [state.parse_edid()].

    Unsigned C values ([unsigned int], [size_t]) are numbers in [N] with
    the 32-bit wrap-around written out; [int] results are in [Z]; byte
    arrays are [list byte]; [std::string] is [string]. *)

From Stdlib Require Import NArith ZArith Lia.
From Stdlib Require Import Strings.Byte.
From stdpp Require Import base numbers list functions strings pretty.

(** ** Data *)

(** Wrap-around of [unsigned int] arithmetic. *)
Definition u32 (n : N) : N := (n mod 2 ^ 32)%N.

(** Modelled from the spec: the indices into [options] that the entry
    point writes; the enum itself is declared in the decoder's header,
    which is not part of src/. *)
Inductive Opt : Set :=
  | OptCheck
  | OptPreferredTimings
  | OptNativeResolution
  | OptSkipSHA
  | OptUTF8.

#[global] Instance Opt_eq_dec : EqDecision Opt.
Proof. solve_decision. Defined.

(** [struct edid_state]: the two fields the entry point assigns, and
    everything else the engine keeps in it. *)
Record edid_state (St : Type) := Build_edid_state {
  edid_size : N;
  num_blocks : N;
  engine_fields : St
}.
Arguments Build_edid_state {St}.
Arguments edid_size {St}.
Arguments num_blocks {St}.
Arguments engine_fields {St}.

(** The globals the entry point touches. [s_msgs[i]] is a row of two
    strings, one per message kind. *)
Record globals (St : Type) := Build_globals {
  edid_input_buffer : list byte;
  edid : list byte;
  s_msgs : list (string * string);
  options : Opt → Z;
  state : edid_state St
}.
Arguments Build_globals {St}.
Arguments edid_input_buffer {St}.
Arguments edid {St}.
Arguments s_msgs {St}.
Arguments options {St}.
Arguments state {St}.

(** What the source takes from the rest of the decoder: the two macros,
    the constructor [edid_state()] and the method [parse_edid()], which
    may read and write every global. *)
Class Engine := {
  EDID_PAGE_SIZE : N;
  EDID_MAX_BLOCKS : N;
  engine_state : Type;
  edid_state_ctor : edid_state engine_state;
  parse_edid : globals engine_state → Z * globals engine_state
}.

(** Externally visible actions of one call: text printed on stderr by
    the entry point, and an invocation of the engine together with the
    globals as the engine finds them. *)
Inductive event (St : Type) :=
  | Stderr (text : string)
  | ParseEdid (g : globals St).
Arguments Stderr {St}.
Arguments ParseEdid {St}.

(** ** A state monad over the globals that also logs events *)

Definition M (St A : Type) : Type := globals St → A * globals St * list (event St).

#[global] Instance M_ret {St} : MRet (M St) := λ A a g, (a, g, []).
#[global] Instance M_bind {St} : MBind (M St) := λ A B f m g,
  let '(a, g1, e1) := m g in
  let '(b, g2, e2) := f a g1 in
  (b, g2, e1 ++ e2).

Definition gets {St A} (f : globals St → A) : M St A := λ g, (f g, g, []).
Definition modify {St} (f : globals St → globals St) : M St unit := λ g, (tt, f g, []).
Definition fprintf_stderr {St} (text : string) : M St unit := λ g, (tt, g, [Stderr text]).

Fixpoint forM_ {St A} (l : list A) (body : A → M St unit) : M St unit :=
  match l with
  | [] => mret tt
  | x :: l' => body x ;; forM_ l' body
  end.

(** Field assignments. *)
Definition set_edid {St} (v : list byte) (g : globals St) : globals St :=
  Build_globals (edid_input_buffer g) v (s_msgs g) (options g) (state g).
Definition set_s_msgs {St} (v : list (string * string)) (g : globals St) : globals St :=
  Build_globals (edid_input_buffer g) (edid g) v (options g) (state g).
Definition set_options {St} (v : Opt → Z) (g : globals St) : globals St :=
  Build_globals (edid_input_buffer g) (edid g) (s_msgs g) v (state g).
Definition set_state {St} (v : edid_state St) (g : globals St) : globals St :=
  Build_globals (edid_input_buffer g) (edid g) (s_msgs g) (options g) v.
Definition set_edid_size {St} (v : N) (s : edid_state St) : edid_state St :=
  Build_edid_state v (num_blocks s) (engine_fields s).
Definition set_num_blocks {St} (v : N) (s : edid_state St) : edid_state St :=
  Build_edid_state (edid_size s) v (engine_fields s).

(** ** Library functions *)

(** [std::string::clear] on [row[k]]. *)
Definition clear (k : nat) (row : string * string) : string * string :=
  match k with
  | 0 => ("", row.2)
  | 1 => (row.1, "")
  | _ => row
  end.

(** [memcmp]: the difference of the first pair of differing bytes, read
    as [unsigned char], among the first [n]; [0] when there is none.  A
    read past the end of an array has no defined result in C; here it
    counts as a difference. *)
Fixpoint memcmp (s1 s2 : list byte) (n : nat) {struct n} : Z :=
  match n with
  | 0 => 0
  | S n' =>
      match s1, s2 with
      | b1 :: t1, b2 :: t2 =>
          if Byte.eqb b1 b2 then memcmp t1 t2 n'
          else (Z.of_N (Byte.to_N b1) - Z.of_N (Byte.to_N b2))%Z
      | _, _ => (-1)%Z
      end
  end.

(** [memcpy dst src n]: the first [n] bytes of [dst] are replaced by
    those of [src]. *)
Definition memcpy (dst src : list byte) (n : nat) : list byte :=
  take n src ++ drop n dst.

(** The line feed of the format strings. *)
Definition nl : string := String (Ascii.ascii_of_nat 10) "".

(** The literal ["\x00\xFF\xFF\xFF\xFF\xFF\xFF\x00"]. *)
Definition edid_header : list byte := [x00; xff; xff; xff; xff; xff; xff; x00].

(** ** The source file *)

Section Source.
Context `{Engine}.

(** [sizeof(edid_input_buffer)], an array of
    [EDID_PAGE_SIZE * EDID_MAX_BLOCKS] bytes. *)
Definition sizeof_edid_input_buffer : N :=
  u32 (EDID_PAGE_SIZE * EDID_MAX_BLOCKS).

Definition get_edid_buffer (g : globals engine_state) : list byte := edid_input_buffer g.

Definition get_edid_buffer_size : N := sizeof_edid_input_buffer.

Definition msgs_clear (i k : nat) : M engine_state unit :=
  modify (λ g, set_s_msgs (alter (clear k) i (s_msgs g)) g).

Definition options_assign (o : Opt) (v : Z) : M engine_state unit :=
  modify (λ g, set_options (<[o := v]> (options g)) g).

Definition state_parse_edid : M engine_state Z := λ g,
  let '(r, g') := parse_edid g in (r, g', [ParseEdid g]).

Definition parse_edid_buffer (len : N) : M engine_state Z :=
  forM_ (seq 0 (N.to_nat (u32 (EDID_MAX_BLOCKS + 1)))) (λ i,
    msgs_clear i 0 ;;
    msgs_clear i 1) ;;
  options_assign OptCheck 1 ;;
  options_assign OptPreferredTimings 1 ;;
  options_assign OptNativeResolution 1 ;;
  options_assign OptSkipSHA 0 ;;
  options_assign OptUTF8 1 ;;
  modify (set_state edid_state_ctor) ;;
  if ((len <? EDID_PAGE_SIZE) || (sizeof_edid_input_buffer <? len))%N then
    fprintf_stderr ("Invalid EDID size: " +:+ pretty len +:+ " bytes" +:+ nl) ;;
    mret (-1)%Z
  else
    buf ← gets edid_input_buffer;
    if negb (memcmp buf edid_header 8 =? 0)%Z then
      fprintf_stderr ("No EDID header found." +:+ nl) ;;
      mret (-1)%Z
    else
      modify (λ g, set_edid (memcpy (edid g) (edid_input_buffer g) (N.to_nat len)) g) ;;
      modify (λ g, set_state (set_edid_size len (state g)) g) ;;
      modify (λ g, set_state (set_num_blocks (len / EDID_PAGE_SIZE)%N (state g)) g) ;;
      state_parse_edid.

End Source.

(** ** Observations on the result of a call *)

Definition status {St} (res : Z * globals St * list (event St)) : Z := res.1.1.
Definition final {St} (res : Z * globals St * list (event St)) : globals St := res.1.2.
Definition trace {St} (res : Z * globals St * list (event St)) : list (event St) := res.2.

(** The globals of each engine invocation in a trace, in order. *)
Fixpoint engine_calls {St} (ev : list (event St)) : list (globals St) :=
  match ev with
  | [] => []
  | ParseEdid g :: ev' => g :: engine_calls ev'
  | Stderr _ :: ev' => engine_calls ev'
  end.

(** The lines printed on stderr in a trace, in order. *)
Fixpoint diagnostics {St} (ev : list (event St)) : list string :=
  match ev with
  | [] => []
  | Stderr s :: ev' => s :: diagnostics ev'
  | ParseEdid _ :: ev' => diagnostics ev'
  end.

(** ** Closed forms of the three phases, used by the proofs *)

Definition clear_rows (n : nat) (rows : list (string * string)) : list (string * string) :=
  foldl (λ rows i, alter (clear 1) i (alter (clear 0) i rows)) rows (seq 0 n).

Definition default_options (o : Opt → Z) : Opt → Z :=
  <[OptUTF8 := 1%Z]> (<[OptSkipSHA := 0%Z]> (<[OptNativeResolution := 1%Z]>
    (<[OptPreferredTimings := 1%Z]> (<[OptCheck := 1%Z]> o)))).

Section Phases.
Context `{Engine}.

Definition after_reset (g : globals engine_state) : globals engine_state :=
  Build_globals (edid_input_buffer g) (edid g)
    (clear_rows (N.to_nat (u32 (EDID_MAX_BLOCKS + 1))) (s_msgs g))
    (default_options (options g)) edid_state_ctor.

Definition at_handoff (len : N) (g : globals engine_state) : globals engine_state :=
  Build_globals (edid_input_buffer g)
    (memcpy (edid g) (edid_input_buffer g) (N.to_nat len))
    (clear_rows (N.to_nat (u32 (EDID_MAX_BLOCKS + 1))) (s_msgs g))
    (default_options (options g))
    (Build_edid_state len (len / EDID_PAGE_SIZE)%N (engine_fields edid_state_ctor)).

End Phases.

(** ** Properties of the globals named in the statements *)

Section Properties.
Context `{Engine}.

(** The staging array starts with the EDID header. *)
Definition header_present (g : globals engine_state) : Prop :=
  take 8 (edid_input_buffer g) = edid_header.

#[global] Instance byte_eq_dec : EqDecision byte := Byte.byte_eq_dec.

#[global] Instance header_present_dec (g : globals engine_state) :
  Decision (header_present g).
Proof. unfold header_present. apply _. Defined.

(** Both logs of every block from 0 through [EDID_MAX_BLOCKS] are empty. *)
Definition logs_empty (g : globals engine_state) : Prop :=
  ∀ i : nat, i ≤ N.to_nat EDID_MAX_BLOCKS → s_msgs g !! i = Some ("", "").

(** The five options have the values the entry point assigns. *)
Definition options_default (g : globals engine_state) : Prop :=
  options g OptCheck = 1%Z ∧ options g OptPreferredTimings = 1%Z ∧
  options g OptNativeResolution = 1%Z ∧ options g OptSkipSHA = 0%Z ∧
  options g OptUTF8 = 1%Z.

(** The arrays have their declared sizes: the staging array has
    [sizeof(edid_input_buffer)] bytes, [edid] at least as many, and
    [s_msgs] has [EDID_MAX_BLOCKS + 1] rows. *)
Definition arrays_declared (g : globals engine_state) : Prop :=
  length (edid_input_buffer g) = N.to_nat sizeof_edid_input_buffer ∧
  N.to_nat sizeof_edid_input_buffer ≤ length (edid g) ∧
  length (s_msgs g) = S (N.to_nat EDID_MAX_BLOCKS).

(** The two diagnostics. *)
Definition invalid_size_text (len : N) : string :=
  "Invalid EDID size: " +:+ pretty len +:+ " bytes" +:+ nl.
Definition no_header_text : string := "No EDID header found." +:+ nl.

End Properties.

(** ** A concrete decoder for the examples

    Pages of 128 bytes and at most 8 blocks, so that the staging array
    has 1024 bytes.  The engine keeps a block counter, reports the number
    of blocks it was given and logs a line for block 0. *)

Definition scenario : Engine := {|
  EDID_PAGE_SIZE := 128%N;
  EDID_MAX_BLOCKS := 8%N;
  engine_state := N;
  edid_state_ctor := Build_edid_state 0%N 0%N 0%N;
  parse_edid := λ g,
    (Z.of_N (num_blocks (state g)),
     set_s_msgs (alter (λ row, ("Block 0", row.2)) 0 (s_msgs g)) g)
|}.

(** A staging array whose header is intact apart from its first byte,
    and globals that still carry the traces of an earlier call. *)
Definition scenario_staging (first : byte) : list byte :=
  first :: [xff; xff; xff; xff; xff; xff; x00] ++ replicate 1016 x00.

Definition scenario_globals (first : byte) : globals N :=
  Build_globals (scenario_staging first) (replicate 1024 x55)
    (replicate 9 ("stale warning", "stale failure"))
    (λ _, 0%Z) (Build_edid_state 512%N 4%N 7%N).

(** Globals whose staging array agrees with [scenario_globals x00] on
    the header only. *)
Definition scenario_other : globals N :=
  Build_globals (edid_header ++ replicate 1016 x41) (replicate 1024 x00)
    (replicate 9 ("", "")) (λ _, 1%Z) (Build_edid_state 0%N 0%N 0%N).

(** ** Notions for statements about pages and about two calls *)

(** Two sets of globals hold the same values in every variable. *)
Definition same_fields {St} (h h' : globals St) : Prop :=
  edid_input_buffer h = edid_input_buffer h' ∧ edid h = edid h' ∧
  s_msgs h = s_msgs h' ∧ (∀ o, options h o = options h' o) ∧
  state h = state h'.

Section Pages.
Context `{Engine}.

(** The bytes of block [b] in an array of pages. *)
Definition page (b : nat) (l : list byte) : list byte :=
  take (N.to_nat EDID_PAGE_SIZE) (drop (b * N.to_nat EDID_PAGE_SIZE) l).

End Pages.

Section Proofs.
Context `{Engine}.

Ltac run_monad :=
  repeat (unfold mbind, M_bind, mret, M_ret, modify, gets, fprintf_stderr,
            options_assign, state_parse_edid; cbn).

Lemma forM_clear_run (l : list nat) (g : globals engine_state) :
  forM_ l (λ i, msgs_clear i 0 ;; msgs_clear i 1) g =
  (tt, set_s_msgs (foldl (λ rows i, alter (clear 1) i (alter (clear 0) i rows)) (s_msgs g) l) g, []).
Proof.
  revert g. induction l as [|i l IH]; intros g.
  - destruct g. reflexivity.
  - cbn [forM_]. unfold mbind, M_bind. cbn. rewrite IH. destruct g. reflexivity.
Qed.

(** *** The message rows after the loop *)

Lemma clear_rows_S (n : nat) (rows : list (string * string)) :
  clear_rows (S n) rows = alter (clear 1) n (alter (clear 0) n (clear_rows n rows)).
Proof. unfold clear_rows. rewrite seq_S, foldl_app. reflexivity. Qed.

Lemma clear_rows_length (n : nat) (rows : list (string * string)) :
  length (clear_rows n rows) = length rows.
Proof.
  induction n as [|n IH]; [reflexivity|].
  rewrite clear_rows_S, !length_alter. exact IH.
Qed.

Lemma clear_rows_lookup_lt (n : nat) (rows : list (string * string)) (i : nat) :
  i < n → i < length rows → clear_rows n rows !! i = Some ("", "").
Proof.
  induction n as [|n IH]; intros Hi Hlen; [lia|].
  rewrite clear_rows_S. destruct (decide (i = n)) as [->|Hne].
  - rewrite !list_lookup_alter_eq.
    destruct (clear_rows n rows !! n) as [[a b]|] eqn:E; [reflexivity|].
    apply lookup_ge_None in E. rewrite clear_rows_length in E. lia.
  - rewrite !list_lookup_alter_ne by congruence. apply IH; lia.
Qed.

Lemma clear_rows_lookup_ge (n : nat) (rows : list (string * string)) (i : nat) :
  n ≤ i → clear_rows n rows !! i = rows !! i.
Proof.
  induction n as [|n IH]; intros Hi; [reflexivity|].
  rewrite clear_rows_S, !list_lookup_alter_ne by lia. apply IH; lia.
Qed.

(** *** The header test *)

Lemma byte_diff_nonzero (b1 b2 : byte) :
  Byte.eqb b1 b2 = false → (Z.of_N (Byte.to_N b1) - Z.of_N (Byte.to_N b2))%Z ≠ 0%Z.
Proof.
  intros Hne Hz. assert (Byte.to_N b1 = Byte.to_N b2) as E by lia.
  assert (Some b1 = Some b2) as E' by (rewrite <- !Byte.of_to_N; congruence).
  injection E' as ->. rewrite (Byte.byte_dec_lb eq_refl) in Hne. discriminate.
Qed.

Lemma memcmp_0_iff (s1 s2 : list byte) (n : nat) :
  n ≤ length s2 → memcmp s1 s2 n = 0%Z ↔ take n s1 = take n s2.
Proof.
  revert s1 s2. induction n as [|n IH]; intros s1 s2 Hlen; [split; reflexivity|].
  destruct s2 as [|b2 t2]; [simpl in Hlen; lia|].
  destruct s1 as [|b1 t1]; [cbn; split; [lia | discriminate]|].
  simpl in Hlen. cbn [memcmp take]. destruct (Byte.eqb b1 b2) eqn:Eb.
  - apply Byte.byte_dec_bl in Eb as ->. rewrite IH by lia.
    split; [intros ->; reflexivity | intros [=]; done].
  - split; [intros E; by apply byte_diff_nonzero in E |].
    intros [= -> _]. rewrite (Byte.byte_dec_lb eq_refl) in Eb. discriminate.
Qed.

Lemma memcmp_take (s1 s2 : list byte) (n : nat) :
  memcmp (take n s1) s2 n = memcmp s1 s2 n.
Proof.
  revert s1 s2. induction n as [|n IH]; intros [|b1 t1] [|b2 t2]; cbn; try done.
  destruct (Byte.eqb b1 b2); auto.
Qed.

Lemma header_test (g : globals engine_state) :
  negb (memcmp (edid_input_buffer g) edid_header 8 =? 0)%Z = false ↔ header_present g.
Proof.
  unfold header_present. rewrite negb_false_iff, Z.eqb_eq, memcmp_0_iff.
  - reflexivity.
  - simpl. lia.
Qed.

(** *** The three ways a call can go *)

#[local] Opaque memcmp.

Lemma parse_edid_buffer_eq (len : N) (g : globals engine_state) :
  parse_edid_buffer len g =
  if ((len <? EDID_PAGE_SIZE) || (sizeof_edid_input_buffer <? len))%N then
    ((-1)%Z, after_reset g,
     [Stderr ("Invalid EDID size: " +:+ pretty len +:+ " bytes" +:+ nl)])
  else if negb (memcmp (edid_input_buffer g) edid_header 8 =? 0)%Z then
    ((-1)%Z, after_reset g, [Stderr ("No EDID header found." +:+ nl)])
  else
    ((parse_edid (at_handoff len g)).1, (parse_edid (at_handoff len g)).2,
     [ParseEdid (at_handoff len g)]).
Proof.
  unfold parse_edid_buffer.
  unfold mbind at 1. unfold M_bind at 1. rewrite forM_clear_run.
  destruct ((len <? EDID_PAGE_SIZE) || (sizeof_edid_input_buffer <? len))%N.
  - reflexivity.
  - run_monad. destruct (memcmp (edid_input_buffer g) edid_header 8 =? 0)%Z.
    + run_monad. unfold at_handoff, clear_rows.
      destruct (parse_edid _) as [r g']. reflexivity.
    + reflexivity.
Qed.

Lemma parse_cases (len : N) (g : globals engine_state) :
  ((len < EDID_PAGE_SIZE ∨ sizeof_edid_input_buffer < len)%N ∧
   parse_edid_buffer len g = ((-1)%Z, after_reset g, [Stderr (invalid_size_text len)]))
  ∨ ((EDID_PAGE_SIZE ≤ len ≤ sizeof_edid_input_buffer)%N ∧ ¬ header_present g ∧
     parse_edid_buffer len g = ((-1)%Z, after_reset g, [Stderr no_header_text]))
  ∨ ((EDID_PAGE_SIZE ≤ len ≤ sizeof_edid_input_buffer)%N ∧ header_present g ∧
     parse_edid_buffer len g =
       ((parse_edid (at_handoff len g)).1, (parse_edid (at_handoff len g)).2,
        [ParseEdid (at_handoff len g)])).
Proof.
  rewrite parse_edid_buffer_eq.
  destruct (len <? EDID_PAGE_SIZE)%N eqn:E1; [left; split; [left; by apply N.ltb_lt | done]|].
  destruct (sizeof_edid_input_buffer <? len)%N eqn:E2;
    [left; split; [right; by apply N.ltb_lt | done]|].
  apply N.ltb_ge in E1, E2. right. cbn [orb].
  destruct (negb (memcmp (edid_input_buffer g) edid_header 8 =? 0)%Z) eqn:E3.
  - left. split; [done|]. split; [|done]. rewrite <- header_test. congruence.
  - right. split; [done|]. split; [|done]. by apply header_test.
Qed.

(** *** What the reset leaves behind *)

Lemma loop_bound_exact :
  (EDID_MAX_BLOCKS + 1 < 2 ^ 32)%N →
  N.to_nat (u32 (EDID_MAX_BLOCKS + 1)) = S (N.to_nat EDID_MAX_BLOCKS).
Proof. intros Hb. unfold u32. rewrite N.mod_small by exact Hb. lia. Qed.

Lemma reset_logs_empty (rows : list (string * string)) (i : nat) :
  length rows = S (N.to_nat EDID_MAX_BLOCKS) →
  (EDID_MAX_BLOCKS + 1 < 2 ^ 32)%N →
  i ≤ N.to_nat EDID_MAX_BLOCKS →
  clear_rows (N.to_nat (u32 (EDID_MAX_BLOCKS + 1))) rows !! i = Some ("", "").
Proof.
  intros Hlen Hb Hi. rewrite loop_bound_exact by exact Hb.
  apply clear_rows_lookup_lt; lia.
Qed.

Lemma default_options_values (o : Opt → Z) :
  default_options o OptCheck = 1%Z ∧ default_options o OptPreferredTimings = 1%Z ∧
  default_options o OptNativeResolution = 1%Z ∧ default_options o OptSkipSHA = 0%Z ∧
  default_options o OptUTF8 = 1%Z.
Proof. unfold default_options. repeat split. Qed.

Lemma texts_differ (len : N) : invalid_size_text len ≠ no_header_text.
Proof. unfold invalid_size_text, no_header_text. cbn. discriminate. Qed.

Lemma header_present_prefix (g1 g2 : globals engine_state) :
  take 8 (edid_input_buffer g1) = take 8 (edid_input_buffer g2) →
  header_present g1 ↔ header_present g2.
Proof. unfold header_present. intros ->. reflexivity. Qed.

Ltac by_cases len g :=
  let Hs := fresh "Hsize" in
  let Hh := fresh "Hheader" in
  let E := fresh "Ecall" in
  destruct (parse_cases len g) as [[Hs E]|[(Hs & Hh & E)|(Hs & Hh & E)]];
  rewrite E; unfold status, final, trace; cbn [fst snd engine_calls diagnostics].

(** ** The claims *)

(** C1, as amended. A call prints the invalid-size diagnostic, returns
    -1 and does not invoke the engine if and only if the declared length
    lies outside [EDID_PAGE_SIZE, sizeof(edid_input_buffer)]. Such a call
    stops before the copy: [state] is left as [edid_state()] built it and
    [edid] is untouched. A declared length equal to the capacity (and not
    below one page) is not rejected for its size. *)
Theorem parse_invalid_size_iff (len : N) (g : globals engine_state) :
  let res := parse_edid_buffer len g in
  ((status res = (-1)%Z ∧ diagnostics (trace res) = [invalid_size_text len] ∧
    engine_calls (trace res) = [])
   ↔ (len < EDID_PAGE_SIZE ∨ sizeof_edid_input_buffer < len)%N)
  ∧ ((len < EDID_PAGE_SIZE ∨ sizeof_edid_input_buffer < len)%N →
     state (final res) = edid_state_ctor ∧ edid (final res) = edid g)
  ∧ (len = sizeof_edid_input_buffer → (EDID_PAGE_SIZE ≤ len)%N →
     diagnostics (trace res) ≠ [invalid_size_text len]).
Proof.
  pose proof (texts_differ len) as Hd.
  cbv zeta. by_cases len g.
  - split; [tauto|]. split; [done|]. intros -> ?. lia.
  - split; [|split].
    + split; [|lia]. intros (_ & Hdiag & _). injection Hdiag as E'. by symmetry in E'.
    + lia.
    + intros _ _ Hdiag. injection Hdiag as E'. by symmetry in E'.
  - split; [|split].
    + split; [|lia]. intros (_ & Hdiag & _). discriminate Hdiag.
    + lia.
    + intros _ _ Hdiag. discriminate Hdiag.
Qed.

(** C2. When the first 8 bytes of the staging array are not the header,
    the call returns -1 and the engine is not invoked, whatever the
    declared length; exactly one diagnostic is printed, and it is the
    missing-header one whenever the declared length is in range. *)
Theorem parse_header_gate (len : N) (g : globals engine_state) :
  ¬ header_present g →
  let res := parse_edid_buffer len g in
  status res = (-1)%Z ∧ engine_calls (trace res) = [] ∧
  (diagnostics (trace res) = [invalid_size_text len] ∨
   diagnostics (trace res) = [no_header_text]) ∧
  ((EDID_PAGE_SIZE ≤ len ≤ sizeof_edid_input_buffer)%N →
   diagnostics (trace res) = [no_header_text]).
Proof.
  intros Hbad. cbv zeta. by_cases len g.
  - split; [done|]. split; [done|]. split; [by left | lia].
  - split; [done|]. split; [done|]. split; [by right | done].
  - done.
Qed.

(** C3. Every call, whatever its length and staging bytes, first clears
    both logs of the blocks 0..EDID_MAX_BLOCKS, assigns the five options
    and rebuilds [state]: a rejected call ends in exactly that state, and
    an engine invocation starts from it, with empty logs for all blocks. *)
Theorem parse_resets_decoder (len : N) (g : globals engine_state) :
  length (s_msgs g) = S (N.to_nat EDID_MAX_BLOCKS) →
  (EDID_MAX_BLOCKS + 1 < 2 ^ 32)%N →
  let res := parse_edid_buffer len g in
  Forall (λ h, logs_empty h ∧ options_default h ∧
               engine_fields (state h) = engine_fields edid_state_ctor)
         (engine_calls (trace res))
  ∧ (engine_calls (trace res) = [] →
     logs_empty (final res) ∧ options_default (final res) ∧
     state (final res) = edid_state_ctor).
Proof.
  intros Hlen Hb. cbv zeta.
  assert (∀ i, i ≤ N.to_nat EDID_MAX_BLOCKS →
    clear_rows (N.to_nat (u32 (EDID_MAX_BLOCKS + 1))) (s_msgs g) !! i = Some ("", ""))
    as Hlogs by (intros i Hi; by apply reset_logs_empty).
  pose proof (default_options_values (options g)) as Hopts.
  by_cases len g.
  - split; [constructor|]. intros _. done.
  - split; [constructor|]. intros _. done.
  - split; [|discriminate]. repeat constructor; done.
Qed.

(** C4. On a call that passes the checks, the engine's [edid] array
    holds the first [len] staging bytes at the same indices; the bytes
    from [len] on are those it held before, and the staging array is
    not modified. *)
Theorem parse_copy_fidelity (len : N) (g : globals engine_state) :
  arrays_declared g →
  (EDID_PAGE_SIZE ≤ len ≤ sizeof_edid_input_buffer)%N →
  header_present g →
  let res := parse_edid_buffer len g in
  ∃ h, engine_calls (trace res) = [h] ∧
    (∀ i : nat, i < N.to_nat len → edid h !! i = edid_input_buffer g !! i) ∧
    (∀ i : nat, N.to_nat len ≤ i → edid h !! i = edid g !! i) ∧
    length (edid h) = length (edid g) ∧
    edid_input_buffer h = edid_input_buffer g.
Proof.
  intros (Hin & Hout & _) Hsz Hhdr. cbv zeta. by_cases len g; [lia | done |].
  eexists. split; [reflexivity|]. cbn [at_handoff edid edid_input_buffer].
  unfold memcpy.
  assert (length (take (N.to_nat len) (edid_input_buffer g)) = N.to_nat len) as Htake
    by (rewrite length_take; lia).
  repeat split.
  - intros i Hi. rewrite lookup_app_l by lia. by apply lookup_take_lt.
  - intros i Hi. rewrite lookup_app_r by lia. rewrite lookup_drop, Htake.
    f_equal. lia.
  - rewrite length_app, length_drop, Htake. lia.
Qed.

(** C5. On a call that passes the checks, the engine finds
    [state.edid_size = len] and [state.num_blocks = len / EDID_PAGE_SIZE],
    the quotient rounded down; for [len = EDID_PAGE_SIZE * 3 + 1] (pages
    of more than one byte) that is 3. *)
Theorem parse_records_size (len : N) (g : globals engine_state) :
  (0 < EDID_PAGE_SIZE)%N →
  (EDID_PAGE_SIZE ≤ len ≤ sizeof_edid_input_buffer)%N →
  header_present g →
  let res := parse_edid_buffer len g in
  ∃ h, engine_calls (trace res) = [h] ∧
    edid_size (state h) = len ∧
    num_blocks (state h) = (len / EDID_PAGE_SIZE)%N ∧
    (num_blocks (state h) * EDID_PAGE_SIZE ≤ len
       < (num_blocks (state h) + 1) * EDID_PAGE_SIZE)%N ∧
    ((1 < EDID_PAGE_SIZE)%N → len = (EDID_PAGE_SIZE * 3 + 1)%N →
     num_blocks (state h) = 3%N).
Proof.
  intros Hpage Hsz Hhdr. cbv zeta. by_cases len g; [lia | done |].
  eexists. split; [reflexivity|]. cbn [at_handoff state edid_size num_blocks].
  repeat split.
  - rewrite N.mul_comm. apply N.Div0.mul_div_le.
  - rewrite N.mul_comm, N.add_1_r. apply N.mul_succ_div_gt. lia.
  - intros Hp ->. symmetry. apply (N.div_unique _ _ 3 1); lia.
Qed.

(** C6. On a call that passes the checks, the engine is invoked exactly
    once, on the reset globals with the copied bytes and the recorded
    size, and the call returns the engine's result and leaves the
    globals as the engine left them. *)
Theorem parse_returns_engine_result (len : N) (g : globals engine_state) :
  (EDID_PAGE_SIZE ≤ len ≤ sizeof_edid_input_buffer)%N →
  header_present g →
  let res := parse_edid_buffer len g in
  ∃ h, trace res = [ParseEdid h] ∧ h = at_handoff len g ∧
    status res = (parse_edid h).1 ∧ final res = (parse_edid h).2.
Proof.
  intros Hsz Hhdr. cbv zeta. by_cases len g; [lia | done |].
  eexists. repeat split.
Qed.

(** C7. A call that fails a check leaves [edid] (and the staging array)
    as it was and ends with the freshly built [state]; [edid] is written
    only by a call that passes every check, which also hands the engine
    a freshly built state. *)
Theorem parse_frame (len : N) (g : globals engine_state) :
  let res := parse_edid_buffer len g in
  ((len < EDID_PAGE_SIZE ∨ sizeof_edid_input_buffer < len)%N ∨ ¬ header_present g →
   status res = (-1)%Z ∧ engine_calls (trace res) = [] ∧
   edid (final res) = edid g ∧
   edid_input_buffer (final res) = edid_input_buffer g ∧
   state (final res) = edid_state_ctor)
  ∧ ((EDID_PAGE_SIZE ≤ len ≤ sizeof_edid_input_buffer)%N ∧ header_present g →
     ∃ h, engine_calls (trace res) = [h] ∧
       edid h = memcpy (edid g) (edid_input_buffer g) (N.to_nat len) ∧
       engine_fields (state h) = engine_fields edid_state_ctor).
Proof.
  cbv zeta. by_cases len g.
  - split; [done|]. intros [? _]. lia.
  - split; [done|]. intros [_ ?]. done.
  - split.
    + intros [?|?]; [lia | done].
    + intros _. eexists. repeat split.
Qed.

(** C8. Every engine invocation finds [state.edid_size = len] within
    [EDID_PAGE_SIZE, sizeof(edid_input_buffer)] and
    [state.num_blocks = state.edid_size / EDID_PAGE_SIZE] within
    [1, EDID_MAX_BLOCKS]. *)
Theorem engine_sees_valid_sizes (len : N) (g : globals engine_state) :
  (0 < EDID_PAGE_SIZE)%N →
  Forall (λ h,
      edid_size (state h) = len ∧
      (EDID_PAGE_SIZE ≤ edid_size (state h) ≤ sizeof_edid_input_buffer)%N ∧
      num_blocks (state h) = (edid_size (state h) / EDID_PAGE_SIZE)%N ∧
      (1 ≤ num_blocks (state h) ≤ EDID_MAX_BLOCKS)%N)
    (engine_calls (trace (parse_edid_buffer len g))).
Proof.
  intros Hpage. by_cases len g; [constructor | constructor |].
  repeat constructor; cbn [at_handoff state edid_size num_blocks]; try lia.
  - apply N.div_le_lower_bound; lia.
  - assert (sizeof_edid_input_buffer ≤ EDID_PAGE_SIZE * EDID_MAX_BLOCKS)%N as Hcap
      by (unfold sizeof_edid_input_buffer, u32; apply N.Div0.mod_le).
    apply N.Div0.div_le_upper_bound. lia.
Qed.

(** C9. Two calls with the same declared length whose staging arrays
    agree on their first 8 bytes are both rejected, with -1, the same
    diagnostic and [edid] untouched, or both copy and invoke the
    engine. *)
Theorem parse_decision_prefix (len : N) (g1 g2 : globals engine_state) :
  take 8 (edid_input_buffer g1) = take 8 (edid_input_buffer g2) →
  let r1 := parse_edid_buffer len g1 in
  let r2 := parse_edid_buffer len g2 in
  (status r1 = (-1)%Z ∧ status r2 = (-1)%Z ∧
   engine_calls (trace r1) = [] ∧ engine_calls (trace r2) = [] ∧
   diagnostics (trace r1) = diagnostics (trace r2) ∧
   edid (final r1) = edid g1 ∧ edid (final r2) = edid g2)
  ∨ (∃ h1 h2, trace r1 = [ParseEdid h1] ∧ trace r2 = [ParseEdid h2] ∧
       edid h1 = memcpy (edid g1) (edid_input_buffer g1) (N.to_nat len) ∧
       edid h2 = memcpy (edid g2) (edid_input_buffer g2) (N.to_nat len)).
Proof.
  intros Hpre. apply header_present_prefix in Hpre. cbv zeta.
  by_cases len g1; by_cases len g2;
    first [ lia | tauto | by left | right; eexists _, _; repeat split ].
Qed.

(** C10. A call rejected for its size and a call rejected for a missing
    header return the same status, -1; each prints one diagnostic, and
    the two texts differ. *)
Theorem parse_failures_same_status
    (len1 len2 : N) (g1 g2 : globals engine_state) :
  (len1 < EDID_PAGE_SIZE ∨ sizeof_edid_input_buffer < len1)%N →
  (EDID_PAGE_SIZE ≤ len2 ≤ sizeof_edid_input_buffer)%N →
  ¬ header_present g2 →
  let r1 := parse_edid_buffer len1 g1 in
  let r2 := parse_edid_buffer len2 g2 in
  status r1 = (-1)%Z ∧ status r2 = (-1)%Z ∧ status r1 = status r2 ∧
  diagnostics (trace r1) = [invalid_size_text len1] ∧
  diagnostics (trace r2) = [no_header_text] ∧
  diagnostics (trace r1) ≠ diagnostics (trace r2).
Proof.
  intros Hs1 Hs2 Hh2. cbv zeta. pose proof (texts_differ len1) as Hd.
  by_cases len1 g1; try lia. by_cases len2 g2; [lia | | done].
  repeat split. intros Hdiag. injection Hdiag as E'. done.
Qed.

(** ** Further properties of the entry point and the accessors *)

Lemma clear_rows_lookup (n : nat) (rows : list (string * string)) (i : nat) :
  clear_rows n rows !! i =
  if decide (i < n) then (λ _, ("", "")) <$> rows !! i else rows !! i.
Proof.
  case_decide as Hi; [|apply clear_rows_lookup_ge; lia].
  destruct (decide (i < length rows)) as [Hlen|Hlen].
  - rewrite clear_rows_lookup_lt by done.
    destruct (lookup_lt_is_Some_2 rows i Hlen) as [row ->]. reflexivity.
  - rewrite (proj2 (lookup_ge_None rows i)) by lia.
    apply lookup_ge_None. rewrite clear_rows_length. lia.
Qed.

Lemma clear_rows_idem (n : nat) (rows : list (string * string)) :
  clear_rows n (clear_rows n rows) = clear_rows n rows.
Proof.
  apply list_eq. intros i. rewrite !clear_rows_lookup.
  case_decide; [|reflexivity]. by destruct (rows !! i).
Qed.

Lemma default_options_idem (o : Opt → Z) (x : Opt) :
  default_options (default_options o) x = default_options o x.
Proof. by destruct x. Qed.

Lemma after_reset_again (len : N) (g : globals engine_state) :
  same_fields (after_reset (after_reset g)) (after_reset g) ∧
  same_fields (at_handoff len (after_reset g)) (at_handoff len g).
Proof.
  unfold same_fields, after_reset, at_handoff; cbn.
  rewrite clear_rows_idem. by repeat split; try apply default_options_idem.
Qed.

Lemma capacity_no_wrap :
  (EDID_PAGE_SIZE * EDID_MAX_BLOCKS < 2 ^ 32)%N →
  sizeof_edid_input_buffer = (EDID_PAGE_SIZE * EDID_MAX_BLOCKS)%N.
Proof. intros Hb. unfold sizeof_edid_input_buffer, u32. by apply N.mod_small. Qed.

(** X1. The engine is invoked exactly when the declared length lies in
    [EDID_PAGE_SIZE, sizeof(edid_input_buffer)] and the staging array
    starts with the header; it is then invoked once, and otherwise the
    call returns -1. *)
Theorem engine_invoked_iff (len : N) (g : globals engine_state) :
  let res := parse_edid_buffer len g in
  (engine_calls (trace res) ≠ [] ↔
   (EDID_PAGE_SIZE ≤ len ≤ sizeof_edid_input_buffer)%N ∧ header_present g)
  ∧ (engine_calls (trace res) = [] ∧ status res = (-1)%Z
     ∨ engine_calls (trace res) = [at_handoff len g]).
Proof.
  cbv zeta. by_cases len g.
  - split; [|by left]. split; [done|]. intros [? _]. lia.
  - split; [|by left]. split; [done|]. intros [_ ?]. done.
  - split; [|by right]. split; [done|]. discriminate.
Qed.

(** X2. A result other than -1 can only be the engine's: the declared
    length was in range, the header was present, and the engine ran
    once on the copied bytes. *)
Theorem status_not_minus_one (len : N) (g : globals engine_state) :
  status (parse_edid_buffer len g) ≠ (-1)%Z →
  (EDID_PAGE_SIZE ≤ len ≤ sizeof_edid_input_buffer)%N ∧ header_present g ∧
  trace (parse_edid_buffer len g) = [ParseEdid (at_handoff len g)] ∧
  status (parse_edid_buffer len g) = (parse_edid (at_handoff len g)).1.
Proof. by_cases len g; done. Qed.

(** X3. Each call does exactly one of two things: it prints a single
    diagnostic, or it invokes the engine a single time. A call that
    prints returns -1. *)
Theorem one_report_per_call (len : N) (g : globals engine_state) :
  let res := parse_edid_buffer len g in
  length (diagnostics (trace res)) + length (engine_calls (trace res)) = 1
  ∧ (diagnostics (trace res) ≠ [] → status res = (-1)%Z).
Proof. cbv zeta. by_cases len g; done. Qed.


(** X5. [get_edid_buffer_size()] is the product of the two macros (when
    it fits an [unsigned int]) and the largest declared length for which
    the engine is ever invoked. Declaring exactly that length, with the
    header in place, hands the engine [EDID_MAX_BLOCKS] blocks and the
    whole staging array. *)
Theorem full_buffer_is_max_blocks (g : globals engine_state) :
  (0 < EDID_PAGE_SIZE)%N →
  (0 < EDID_MAX_BLOCKS)%N →
  (EDID_PAGE_SIZE * EDID_MAX_BLOCKS < 2 ^ 32)%N →
  arrays_declared g →
  header_present g →
  let res := parse_edid_buffer get_edid_buffer_size g in
  get_edid_buffer_size = (EDID_PAGE_SIZE * EDID_MAX_BLOCKS)%N ∧
  (∀ len g', engine_calls (trace (parse_edid_buffer len g')) ≠ [] →
             (len ≤ get_edid_buffer_size)%N) ∧
  ∃ h, engine_calls (trace res) = [h] ∧
    edid_size (state h) = get_edid_buffer_size ∧
    num_blocks (state h) = EDID_MAX_BLOCKS ∧
    take (length (get_edid_buffer g)) (edid h) = get_edid_buffer g.
Proof.
  intros Hpage Hmax Hfit (Hin & _ & _) Hhdr. cbv zeta.
  pose proof (capacity_no_wrap Hfit) as Hcap. unfold get_edid_buffer_size.
  split; [exact Hcap|]. split.
  - intros len g'. by_cases len g'; [done | done |]. intros _. lia.
  - by_cases sizeof_edid_input_buffer g; [nia | done |].
    eexists. split; [reflexivity|]. cbn [at_handoff state edid_size num_blocks edid].
    split; [reflexivity|]. split.
    + rewrite Hcap, N.mul_comm. apply N.div_mul. lia.
    + unfold get_edid_buffer, memcpy. rewrite <- Hin.
      rewrite firstn_all. apply take_app_length.
Qed.

(** X6. A rejected call leaves nothing behind for the next one: calling
    again, with any declared length, prints the same diagnostic or hands
    the engine the same values in every global as the same call would
    have without the rejected one before it. *)
Theorem retry_after_rejection (len0 len : N) (g : globals engine_state) :
  let first := parse_edid_buffer len0 g in
  engine_calls (trace first) = [] →
  let again := parse_edid_buffer len (final first) in
  let fresh := parse_edid_buffer len g in
  diagnostics (trace again) = diagnostics (trace fresh) ∧
  Forall2 same_fields (engine_calls (trace again)) (engine_calls (trace fresh)) ∧
  (engine_calls (trace again) = [] →
   status again = status fresh ∧ same_fields (final again) (final fresh)).
Proof.
  cbv zeta. destruct (after_reset_again len g) as [Hreset Hhand].
  assert (header_present (after_reset g) ↔ header_present g) as Hsame by done.
  by_cases len0 g; intros Hrej; [| |discriminate Hrej].
  all: by_cases len (after_reset g); by_cases len g;
    first [ lia | tauto
          | split; [reflexivity|]; split; [constructor|];
            intros _; split; [reflexivity | exact Hreset]
          | split; [reflexivity|]; split; [|discriminate];
            constructor; [exact Hhand | constructor] ].
Qed.

(** X7. Every block the engine is told about is a whole page of the
    staging array: for each block number below [state.num_blocks], the
    page of [edid] with that number has [EDID_PAGE_SIZE] bytes and
    equals the same page of the staging array. *)
Theorem counted_blocks_are_copied_pages
    (len : N) (g : globals engine_state) (b : nat) :
  arrays_declared g →
  (0 < EDID_PAGE_SIZE)%N →
  Forall (λ h,
      (N.of_nat b < num_blocks (state h))%N →
      page b (edid h) = page b (get_edid_buffer g) ∧
      length (page b (edid h)) = N.to_nat EDID_PAGE_SIZE)
    (engine_calls (trace (parse_edid_buffer len g))).
Proof.
  intros (Hin & _ & _) Hpage. by_cases len g; [constructor | constructor |].
  repeat constructor; cbn [at_handoff state num_blocks edid] in *.
  all: unfold page, get_edid_buffer, memcpy.
  all: pose proof (N.Div0.mul_div_le len EDID_PAGE_SIZE) as Hfloor.
  all: assert (b * N.to_nat EDID_PAGE_SIZE + N.to_nat EDID_PAGE_SIZE ≤ N.to_nat len)
         as Hfits by nia.
  all: assert (length (take (N.to_nat len) (edid_input_buffer g)) = N.to_nat len)
         as Htake by (rewrite length_take; lia).
  all: rewrite drop_app_le by lia.
  all: rewrite take_app_le by (rewrite length_drop; lia).
  - rewrite take_drop_commute, take_take, take_drop_commute. do 2 f_equal. lia.
  - rewrite length_take, length_drop. lia.
Qed.


End Proofs.

(** ** The claims at the concrete decoder *)

(** C1: with a declared length of one page, which is in range, and a
    wrong first header byte, the call returns -1 without invoking the
    engine. *)
Lemma invalid_size_status_with_valid_size :
  let res := @parse_edid_buffer scenario 128 (scenario_globals x01) in
  (status res = (-1)%Z ∧ engine_calls (trace res) = []) ∧
  ¬ (128 < @EDID_PAGE_SIZE scenario ∨ @sizeof_edid_input_buffer scenario < 128)%N.
Proof.
  vm_compute. split; [split; reflexivity|]. intros [E|E]; discriminate E.
Qed.

Lemma parse_header_gate_witness :
  ¬ @header_present scenario (scenario_globals x01) ∧
  let res := @parse_edid_buffer scenario 128 (scenario_globals x01) in
  status res = (-1)%Z ∧ engine_calls (trace res) = [] ∧
  (diagnostics (trace res) = [invalid_size_text 128] ∨
   diagnostics (trace res) = [@no_header_text]) ∧
  ((@EDID_PAGE_SIZE scenario ≤ 128 ≤ @sizeof_edid_input_buffer scenario)%N →
   diagnostics (trace res) = [@no_header_text]).
Proof.
  assert (¬ @header_present scenario (scenario_globals x01)) as Hbad
    by (intros E; vm_compute in E; discriminate E).
  split; [exact Hbad|].
  exact (@parse_header_gate scenario 128 (scenario_globals x01) Hbad).
Defined.

Lemma parse_resets_decoder_witness :
  let res := @parse_edid_buffer scenario 128 (scenario_globals x00) in
  Forall (λ h, @logs_empty scenario h ∧ options_default h ∧
               engine_fields (state h) = engine_fields (@edid_state_ctor scenario))
         (engine_calls (trace res))
  ∧ (engine_calls (trace res) = [] →
     @logs_empty scenario (final res) ∧ options_default (final res) ∧
     state (final res) = @edid_state_ctor scenario).
Proof.
  apply (@parse_resets_decoder scenario 128 (scenario_globals x00)).
  - reflexivity.
  - reflexivity.
Defined.

Lemma parse_copy_fidelity_witness :
  let res := @parse_edid_buffer scenario 385 (scenario_globals x00) in
  ∃ h, engine_calls (trace res) = [h] ∧
    (∀ i : nat, i < 385 → edid h !! i = scenario_staging x00 !! i) ∧
    (∀ i : nat, 385 ≤ i → edid h !! i = replicate 1024 x55 !! i) ∧
    length (edid h) = length (replicate 1024 x55) ∧
    edid_input_buffer h = scenario_staging x00.
Proof.
  apply (@parse_copy_fidelity scenario 385 (scenario_globals x00)).
  - repeat split; vm_compute; constructor.
  - split; vm_compute; discriminate.
  - reflexivity.
Defined.

Lemma parse_records_size_witness :
  let res := @parse_edid_buffer scenario (128 * 3 + 1) (scenario_globals x00) in
  ∃ h, engine_calls (trace res) = [h] ∧
    edid_size (state h) = (128 * 3 + 1)%N ∧
    num_blocks (state h) = 3%N.
Proof.
  destruct (@parse_records_size scenario (128 * 3 + 1) (scenario_globals x00))
    as (h & Hcall & Hsize & _ & _ & Hthree).
  - reflexivity.
  - split; vm_compute; discriminate.
  - reflexivity.
  - exists h. split; [exact Hcall|]. split; [exact Hsize|].
    apply Hthree; reflexivity.
Defined.

Lemma parse_returns_engine_result_witness :
  let res := @parse_edid_buffer scenario 128 (scenario_globals x00) in
  ∃ h, trace res = [ParseEdid h] ∧ h = @at_handoff scenario 128 (scenario_globals x00) ∧
    status res = (@parse_edid scenario h).1 ∧ final res = (@parse_edid scenario h).2.
Proof.
  apply (@parse_returns_engine_result scenario 128 (scenario_globals x00)).
  - split; vm_compute; discriminate.
  - reflexivity.
Defined.

Lemma engine_sees_valid_sizes_witness :
  Forall (λ h,
      edid_size (state h) = 1024%N ∧
      (128 ≤ edid_size (state h) ≤ 1024)%N ∧
      num_blocks (state h) = (edid_size (state h) / 128)%N ∧
      (1 ≤ num_blocks (state h) ≤ 8)%N)
    (engine_calls (trace (@parse_edid_buffer scenario 1024 (scenario_globals x00)))).
Proof.
  apply (@engine_sees_valid_sizes scenario 1024 (scenario_globals x00)).
  reflexivity.
Defined.

Lemma parse_decision_prefix_witness :
  let r1 := @parse_edid_buffer scenario 128 (scenario_globals x00) in
  let r2 := @parse_edid_buffer scenario 128 scenario_other in
  (status r1 = (-1)%Z ∧ status r2 = (-1)%Z ∧
   engine_calls (trace r1) = [] ∧ engine_calls (trace r2) = [] ∧
   diagnostics (trace r1) = diagnostics (trace r2) ∧
   edid (final r1) = replicate 1024 x55 ∧ edid (final r2) = replicate 1024 x00)
  ∨ (∃ h1 h2, trace r1 = [ParseEdid h1] ∧ trace r2 = [ParseEdid h2] ∧
       edid h1 = memcpy (replicate 1024 x55) (scenario_staging x00) 128 ∧
       edid h2 = memcpy (replicate 1024 x00) (edid_header ++ replicate 1016 x41) 128).
Proof.
  apply (@parse_decision_prefix scenario 128 (scenario_globals x00) scenario_other).
  reflexivity.
Defined.

Lemma parse_failures_same_status_witness :
  let r1 := @parse_edid_buffer scenario 64 (scenario_globals x00) in
  let r2 := @parse_edid_buffer scenario 128 (scenario_globals x01) in
  status r1 = (-1)%Z ∧ status r2 = (-1)%Z ∧ status r1 = status r2 ∧
  diagnostics (trace r1) = [invalid_size_text 64] ∧
  diagnostics (trace r2) = [no_header_text] ∧
  diagnostics (trace r1) ≠ diagnostics (trace r2).
Proof.
  apply (@parse_failures_same_status scenario 64 128
           (scenario_globals x00) (scenario_globals x01)).
  - left. reflexivity.
  - split; vm_compute; discriminate.
  - intros E. vm_compute in E. discriminate E.
Defined.

(** ** The further properties at the concrete decoder *)

Lemma status_not_minus_one_witness :
  (@EDID_PAGE_SIZE scenario ≤ 128 ≤ @sizeof_edid_input_buffer scenario)%N ∧
  @header_present scenario (scenario_globals x00) ∧
  trace (@parse_edid_buffer scenario 128 (scenario_globals x00)) =
    [ParseEdid (@at_handoff scenario 128 (scenario_globals x00))] ∧
  status (@parse_edid_buffer scenario 128 (scenario_globals x00)) =
    (@parse_edid scenario (@at_handoff scenario 128 (scenario_globals x00))).1.
Proof.
  apply (@status_not_minus_one scenario 128 (scenario_globals x00)).
  intros E. vm_compute in E. discriminate E.
Defined.


Lemma full_buffer_is_max_blocks_witness :
  let res := @parse_edid_buffer scenario 1024 (scenario_globals x00) in
  ∃ h, engine_calls (trace res) = [h] ∧
    edid_size (state h) = 1024%N ∧
    num_blocks (state h) = 8%N ∧
    take 1024 (edid h) = scenario_staging x00.
Proof.
  destruct (@full_buffer_is_max_blocks scenario (scenario_globals x00))
    as (_ & _ & Hfull).
  - reflexivity.
  - reflexivity.
  - reflexivity.
  - repeat split; vm_compute; constructor.
  - reflexivity.
  - exact Hfull.
Defined.

Lemma retry_after_rejection_witness :
  let first := @parse_edid_buffer scenario 64 (scenario_globals x00) in
  let again := @parse_edid_buffer scenario 128 (final first) in
  let fresh := @parse_edid_buffer scenario 128 (scenario_globals x00) in
  diagnostics (trace again) = diagnostics (trace fresh) ∧
  Forall2 same_fields (engine_calls (trace again)) (engine_calls (trace fresh)) ∧
  (engine_calls (trace again) = [] →
   status again = status fresh ∧ same_fields (final again) (final fresh)).
Proof.
  apply (@retry_after_rejection scenario 64 128 (scenario_globals x00)).
  reflexivity.
Defined.

Lemma counted_blocks_are_copied_pages_witness :
  Forall (λ h,
      (2 < num_blocks (state h))%N →
      @page scenario 2 (edid h) = @page scenario 2 (scenario_staging x00) ∧
      length (@page scenario 2 (edid h)) = 128)
    (engine_calls (trace (@parse_edid_buffer scenario 385 (scenario_globals x00)))).
Proof.
  apply (@counted_blocks_are_copied_pages scenario 385 (scenario_globals x00) 2).
  - repeat split; vm_compute; constructor.
  - reflexivity.
Defined.

